(** * Smooth round rectangles: [shell/renderer/electron_smooth_round_rect.cc]

    A shallow embedding of the path construction for rectangles with
    continuous-curvature corners, and the properties of it that the
    specification states.

    Numbers.  The C++ [float] values are idealised as real numbers ([R]):
    every arithmetic operation is the exact one, [std::sin], [std::cos] and
    [std::tan] are the real functions, [std::numbers::pi] is [PI].  Rounding
    is outside the model; overflow to an infinity and NaN are followed
    separately for the offsets of the constructor ([CurveGeometry_offsets]).
    The C++ [int] rotation index is an integer ([Z]), with [INT_MAX] a
    hypothesis where an index is added to; [%] on [int] truncates towards
    zero, which is [Z.rem].

    Effects.  [DCHECK_*] either passes or ends the program; a computation that
    may hit one returns a [Checked] value.  [SkPath& path] is threaded
    explicitly: each emitter takes the path built so far and returns the
    extended one. *)

From Stdlib Require Import Reals Lra Lia ZArith List Bool.
Import ListNotations.

Open Scope R_scope.

(** ** Fatal checks *)

(** Modelled from the spec: the macros of [base/check_op.h] are not part of
    the sources.  Violations "are reported via fatal assertion failures in
    instrumented builds"; other builds perform "no runtime validation".  The
    build decides through [DCHECK_IS_ON]. *)
Class Build : Type := { DCHECK_IS_ON : bool }.

Inductive Checked (A : Type) : Type :=
| Done (a : A)
| Fatal.

Arguments Done {A} a.
Arguments Fatal {A}.

Definition bind {A B : Type} (c : Checked A) (k : A -> Checked B) : Checked B :=
  match c with
  | Done a => k a
  | Fatal => Fatal
  end.

Notation "x <- c ;; k" := (bind c (fun x => k))
  (at level 61, c at next level, right associativity).
Notation "c ;;; k" := (bind c (fun _ => k))
  (at level 61, right associativity).

Definition DCHECK `{Build} (condition : bool) : Checked unit :=
  if DCHECK_IS_ON then (if condition then Done tt else Fatal) else Done tt.

Definition Rgtb (a b : R) : bool := if Rgt_dec a b then true else false.
Definition Rleb (a b : R) : bool := if Rle_dec a b then true else false.

Definition DCHECK_GT `{Build} (a b : R) : Checked unit := DCHECK (Rgtb a b).
Definition DCHECK_LE `{Build} (a b : R) : Checked unit := DCHECK (Rleb a b).
Definition DCHECK_GE_int `{Build} (a b : Z) : Checked unit := DCHECK (a >=? b)%Z.
Definition DCHECK_LT_int `{Build} (a b : Z) : Checked unit := DCHECK (a <? b)%Z.

(** ** Points and paths *)

Module SkPoint.
Record t : Type := Make { x : R; y : R }.

(** [operator+] of a point and a vector. *)
Definition add (a b : t) : t := Make (x a + x b) (y a + y b).
End SkPoint.

Definition SkVector : Type := SkPoint.t.
Infix "+>" := SkPoint.add (at level 50, left associativity).

Inductive ArcSize : Type := kSmall_ArcSize | kLarge_ArcSize.
Inductive SkPathDirection : Type := kCW | kCCW.

(** Modelled from the spec: the path class itself belongs to the graphics
    library.  "The path value is a sequence of drawing verbs (move-to,
    line-to, cubic-Bezier-to with two control points, arc-to with
    radius/direction/size flags, close)"; a path is the list of the calls made
    on it, oldest first. *)
Inductive PathVerb : Type :=
| Move (p : SkPoint.t)
| Line (p : SkPoint.t)
| Cubic (control1 control2 end_point : SkPoint.t)
| Arc (radii : SkPoint.t) (x_axis_rotate : R) (size : ArcSize)
      (sweep : SkPathDirection) (end_point : SkPoint.t)
| Close.

Definition SkPath : Type := list PathVerb.

Definition moveTo (path : SkPath) (p : SkPoint.t) : SkPath := path ++ [Move p].
Definition lineTo (path : SkPath) (p : SkPoint.t) : SkPath := path ++ [Line p].
Definition cubicTo (path : SkPath) (p1 p2 p3 : SkPoint.t) : SkPath :=
  path ++ [Cubic p1 p2 p3].
Definition arcTo (path : SkPath) (r : SkPoint.t) (x_axis_rotate : R)
    (size : ArcSize) (sweep : SkPathDirection) (xy : SkPoint.t) : SkPath :=
  path ++ [Arc r x_axis_rotate size sweep xy].
Definition close (path : SkPath) : SkPath := path ++ [Close].

(** ** Constants *)

Definition PI_DIV_4 : R := PI / 4.
Definition EDGE_CURVE_POINT_RATIO : R := 2 / 3.

(** ** QuarterRotate *)

(** Applies quarter rotations to a point.
      0 = +X +Y,  1 = +Y -X,  2 = -X -Y,  3 = -Y +X. *)
Definition QuarterRotate (p : SkPoint.t) (quarter_rotations : Z) : SkPoint.t :=
  let sign_x := if (Z.rem quarter_rotations 4 <? 2)%Z then 1 else -1 in
  let sign_y := if (Z.rem (quarter_rotations + 1) 4 <? 2)%Z then 1 else -1 in
  let is_even_rotation := (Z.rem quarter_rotations 2 =? 0)%Z in
  let value_x := if is_even_rotation then SkPoint.x p else SkPoint.y p in
  let value_y := if is_even_rotation then SkPoint.y p else SkPoint.x p in
  SkPoint.Make (sign_x * value_x) (sign_y * value_y).

(** ** CurveGeometry *)

Definition arc_angle (smoothness : R) : R := PI_DIV_4 * smoothness.

Module CurveGeometry.
Record t : Type := Build_t {
  (* The point where the edge connects to the curve. *)
  edge_connecting_offset : R;
  (* The control point for the curvature where the edge connects to the curve. *)
  edge_curve_offset : R;
  (* The control point for the curvature where the arc connects to the curve. *)
  arc_curve_offset : R;
  (* The point where the arc connects to the curve. *)
  arc_connecting_vector : SkVector
}.

Definition edge_connecting_vector (g : t) : SkVector :=
  SkPoint.Make (edge_connecting_offset g) 0.
Definition edge_curve_vector (g : t) : SkVector :=
  SkPoint.Make (edge_curve_offset g) 0.
Definition arc_curve_vector (g : t) : SkVector :=
  SkPoint.Make (arc_curve_offset g) 0.
Definition arc_connecting_vector_transposed (g : t) : SkVector :=
  SkPoint.Make (SkPoint.y (arc_connecting_vector g))
               (SkPoint.x (arc_connecting_vector g)).

(** The assignments of the constructor body, after its checks. *)
Definition fields (radius smoothness : R) : t :=
  let edge_connecting_offset := (1 + smoothness) * radius in
  let arc_angle := arc_angle smoothness in
  let arc_connecting_vector :=
    SkPoint.Make (1 - sin arc_angle) (1 - cos arc_angle) in
  let arc_curve_offset := 1 - tan (arc_angle / 2) in
  let edge_curve_offset :=
    edge_connecting_offset -
    ((edge_connecting_offset - arc_curve_offset) * EDGE_CURVE_POINT_RATIO) in
  Build_t edge_connecting_offset edge_curve_offset arc_curve_offset
          arc_connecting_vector.

(** [CurveGeometry::CurveGeometry(float radius, float smoothness)]. *)
Definition CurveGeometry `{Build} (radius smoothness : R) : Checked t :=
  DCHECK_GT radius 0 ;;;
  DCHECK_GT smoothness 0 ;;;
  DCHECK_LE smoothness 1 ;;;
  Done (fields radius smoothness).
End CurveGeometry.

(** ** DrawCorner *)

Definition DrawCorner `{Build} (path : SkPath) (radius : R)
    (curve : CurveGeometry.t) (corner : SkPoint.t) (quarter_rotations : Z)
    : Checked SkPath :=
  DCHECK_GE_int quarter_rotations 0 ;;;
  DCHECK_LT_int quarter_rotations 4 ;;;
  (* Move/Line to the edge connecting point *)
  let path :=
    let edge_connecting_point :=
      corner +> QuarterRotate (CurveGeometry.edge_connecting_vector curve)
                              (quarter_rotations + 1) in
    if (quarter_rotations =? 0)%Z
    then moveTo path edge_connecting_point
    else lineTo path edge_connecting_point in
  (* Draw the first smoothing curve *)
  let path :=
    let edge_curve_point :=
      corner +> QuarterRotate (CurveGeometry.edge_curve_vector curve)
                              (quarter_rotations + 1) in
    let arc_curve_point :=
      corner +> QuarterRotate (CurveGeometry.arc_curve_vector curve)
                              (quarter_rotations + 1) in
    let arc_connecting_point :=
      corner +> QuarterRotate (CurveGeometry.arc_connecting_vector_transposed curve)
                              quarter_rotations in
    cubicTo path edge_curve_point arc_curve_point arc_connecting_point in
  (* Draw the arc *)
  let path :=
    let arc_connecting_point :=
      corner +> QuarterRotate (CurveGeometry.arc_connecting_vector curve)
                              quarter_rotations in
    arcTo path (SkPoint.Make radius radius) 0 kSmall_ArcSize kCW
          arc_connecting_point in
  (* Draw the second smoothing curve *)
  let path :=
    let arc_curve_point :=
      corner +> QuarterRotate (CurveGeometry.arc_curve_vector curve)
                              quarter_rotations in
    let edge_curve_point :=
      corner +> QuarterRotate (CurveGeometry.edge_curve_vector curve)
                              quarter_rotations in
    let edge_connecting_point :=
      corner +> QuarterRotate (CurveGeometry.edge_connecting_vector curve)
                              quarter_rotations in
    cubicTo path arc_curve_point edge_curve_point edge_connecting_point in
  Done path.

(** ** DrawSmoothRoundRect *)

Definition DrawSmoothRoundRect `{Build} (x y width height smoothness
    top_left_radius top_right_radius bottom_right_radius bottom_left_radius : R)
    : Checked SkPath :=
  DCHECK_GT width 0 ;;;
  DCHECK_GT height 0 ;;;
  DCHECK_GT smoothness 0 ;;;
  DCHECK_LE smoothness 1 ;;;
  DCHECK_GT top_left_radius 0 ;;;
  DCHECK_GT top_right_radius 0 ;;;
  DCHECK_GT bottom_right_radius 0 ;;;
  DCHECK_GT bottom_left_radius 0 ;;;
  let path : SkPath := [] in
  (* Top left corner *)
  curve <- CurveGeometry.CurveGeometry top_left_radius smoothness ;;
  path <- DrawCorner path top_left_radius curve (SkPoint.Make x y) 0 ;;
  (* Top right corner *)
  curve <- CurveGeometry.CurveGeometry top_right_radius smoothness ;;
  path <- DrawCorner path top_right_radius curve
                     (SkPoint.Make (x + width) y) 1 ;;
  (* Bottom right corner *)
  curve <- CurveGeometry.CurveGeometry bottom_right_radius smoothness ;;
  path <- DrawCorner path bottom_right_radius curve
                     (SkPoint.Make (x + width) (y + height)) 2 ;;
  (* Bottom left corner *)
  curve <- CurveGeometry.CurveGeometry bottom_left_radius smoothness ;;
  path <- DrawCorner path bottom_left_radius curve
                     (SkPoint.Make x (y + height)) 3 ;;
  Done (close path).

(** ** What the specification talks about *)

(** The inputs the entry point accepts. *)
Definition valid_input (width height smoothness top_left_radius
    top_right_radius bottom_right_radius bottom_left_radius : R) : Prop :=
  width > 0 /\ height > 0 /\ smoothness > 0 /\ smoothness <= 1 /\
  top_left_radius > 0 /\ top_right_radius > 0 /\
  bottom_right_radius > 0 /\ bottom_left_radius > 0.

(** The inputs the constructor of the geometry accepts. *)
Definition valid_corner (radius smoothness : R) : Prop :=
  radius > 0 /\ smoothness > 0 /\ smoothness <= 1.

(** The rotation of the plane by the angle [theta], clockwise for the usual
    orientation of the axes (x to the right, y upwards): the image of (1, 0)
    under a quarter turn is (0, -1). *)
Definition rotate_clockwise (theta : R) (v : SkVector) : SkVector :=
  SkPoint.Make (SkPoint.x v * cos theta + SkPoint.y v * sin theta)
               (- SkPoint.x v * sin theta + SkPoint.y v * cos theta).

(** The rule of the specification for a quarter rotation, in its words:
    "determine sign_x from whether n mod 4 < 2, sign_y from whether
    (n+1) mod 4 < 2; if n is odd, swap the vector's two components before
    applying signs, else keep them in order". *)
Definition QuarterRotate_rule (v : SkVector) (n : Z) : SkVector :=
  let sign_x := if (n mod 4 <? 2)%Z then 1 else -1 in
  let sign_y := if ((n + 1) mod 4 <? 2)%Z then 1 else -1 in
  let swapped := if Z.odd n then SkPoint.Make (SkPoint.y v) (SkPoint.x v) else v in
  SkPoint.Make (sign_x * SkPoint.x swapped) (sign_y * SkPoint.y swapped).

Definition transpose (v : SkVector) : SkVector :=
  SkPoint.Make (SkPoint.y v) (SkPoint.x v).

(** The mirror image of [v] in the second axis. *)
Definition mirror (v : SkVector) : SkVector :=
  SkPoint.Make (- SkPoint.x v) (SkPoint.y v).

Inductive VerbKind : Type := kMove | kLine | kCubic | kArc | kClose.

Definition VerbKind_eqb (a b : VerbKind) : bool :=
  match a, b with
  | kMove, kMove | kLine, kLine | kCubic, kCubic | kArc, kArc
  | kClose, kClose => true
  | _, _ => false
  end.

Definition kind_of (v : PathVerb) : VerbKind :=
  match v with
  | Move _ => kMove
  | Line _ => kLine
  | Cubic _ _ _ => kCubic
  | Arc _ _ _ _ _ => kArc
  | Close => kClose
  end.

Definition count_verbs (k : VerbKind) (path : SkPath) : nat :=
  length (filter (fun v => VerbKind_eqb (kind_of v) k) path).

(** The point a verb leaves the pen at; [Close] draws to no point of its own. *)
Definition end_point (v : PathVerb) : option SkPoint.t :=
  match v with
  | Move p | Line p => Some p
  | Cubic _ _ p => Some p
  | Arc _ _ _ _ p => Some p
  | Close => None
  end.

(** The point of the first verb when that verb is a move. *)
Definition first_move_point (path : SkPath) : option SkPoint.t :=
  match path with
  | Move p :: _ => Some p
  | _ => None
  end.

(** The point the last drawing verb ends at, closes skipped. *)
Fixpoint final_drawn_point (path : SkPath) : option SkPoint.t :=
  match path with
  | [] => None
  | v :: rest =>
      match final_drawn_point rest with
      | Some p => Some p
      | None => end_point v
      end
  end.

(** The path ends where it starts, up to [tolerance] in each coordinate. *)
Definition ends_at_start (tolerance : R) (path : SkPath) : Prop :=
  exists first final,
    first_move_point path = Some first /\
    final_drawn_point path = Some final /\
    Rabs (SkPoint.x final - SkPoint.x first) <= tolerance /\
    Rabs (SkPoint.y final - SkPoint.y first) <= tolerance.

(** The radii of the arcs of a path, in order. *)
Fixpoint arc_radii (path : SkPath) : list R :=
  match path with
  | [] => []
  | Arc r _ _ _ _ :: rest => SkPoint.x r :: arc_radii rest
  | _ :: rest => arc_radii rest
  end.

(** The four verbs one call of [DrawCorner] appends. *)
Definition corner_verbs (radius : R) (curve : CurveGeometry.t)
    (corner : SkPoint.t) (quarter_rotations : Z) : SkPath :=
  [ (if (quarter_rotations =? 0)%Z then Move else Line)
      (corner +> QuarterRotate (CurveGeometry.edge_connecting_vector curve)
                               (quarter_rotations + 1));
    Cubic
      (corner +> QuarterRotate (CurveGeometry.edge_curve_vector curve)
                               (quarter_rotations + 1))
      (corner +> QuarterRotate (CurveGeometry.arc_curve_vector curve)
                               (quarter_rotations + 1))
      (corner +> QuarterRotate
                   (CurveGeometry.arc_connecting_vector_transposed curve)
                   quarter_rotations);
    Arc (SkPoint.Make radius radius) 0 kSmall_ArcSize kCW
      (corner +> QuarterRotate (CurveGeometry.arc_connecting_vector curve)
                               quarter_rotations);
    Cubic
      (corner +> QuarterRotate (CurveGeometry.arc_curve_vector curve)
                               quarter_rotations)
      (corner +> QuarterRotate (CurveGeometry.edge_curve_vector curve)
                               quarter_rotations)
      (corner +> QuarterRotate (CurveGeometry.edge_connecting_vector curve)
                               quarter_rotations) ].

(** The verbs of the corner with index [i] (0 = top left, then clockwise) in
    a finished path: four verbs per corner. *)
Definition corner_segments (i : nat) (path : SkPath) : SkPath :=
  firstn 4 (skipn (4 * i) path).

(** The corner radius with index [i] among the four arguments. *)
Definition radius_of (i : nat) (top_left_radius top_right_radius
    bottom_right_radius bottom_left_radius : R) : R :=
  match i with
  | O => top_left_radius
  | 1%nat => top_right_radius
  | 2%nat => bottom_right_radius
  | _ => bottom_left_radius
  end.

(** The verbs of a whole rectangle: the four corners, clockwise from the top
    left one, and the close. *)
Definition rect_verbs (x y width height smoothness top_left_radius
    top_right_radius bottom_right_radius bottom_left_radius : R) : SkPath :=
  corner_verbs top_left_radius
    (CurveGeometry.fields top_left_radius smoothness) (SkPoint.Make x y) 0 ++
  corner_verbs top_right_radius
    (CurveGeometry.fields top_right_radius smoothness)
    (SkPoint.Make (x + width) y) 1 ++
  corner_verbs bottom_right_radius
    (CurveGeometry.fields bottom_right_radius smoothness)
    (SkPoint.Make (x + width) (y + height)) 2 ++
  corner_verbs bottom_left_radius
    (CurveGeometry.fields bottom_left_radius smoothness)
    (SkPoint.Make x (y + height)) 3 ++
  [Close].

(** The square of the length of a vector. *)
Definition norm2 (v : SkVector) : R :=
  SkPoint.x v * SkPoint.x v + SkPoint.y v * SkPoint.y v.

Definition scale (k : R) (v : SkVector) : SkVector :=
  SkPoint.Make (k * SkPoint.x v) (k * SkPoint.y v).

(** Each verb of a path together with the position of the pen before it:
    a move starts a contour, a close takes the pen back to the start of the
    contour, any other verb leaves the pen at its end point. *)
Fixpoint spans_from (start current : SkPoint.t) (path : SkPath)
    : list (SkPoint.t * PathVerb) :=
  match path with
  | [] => []
  | v :: rest =>
      (current, v) ::
      match v with
      | Move p => spans_from p p rest
      | Line p => spans_from start p rest
      | Cubic _ _ p => spans_from start p rest
      | Arc _ _ _ _ p => spans_from start p rest
      | Close => spans_from start start rest
      end
  end.

Definition spans (path : SkPath) : list (SkPoint.t * PathVerb) :=
  spans_from (SkPoint.Make 0 0) (SkPoint.Make 0 0) path.

(** The position of the corner with index [i]. *)
Definition corner_of (i : nat) (x y width height : R) : SkPoint.t :=
  match i with
  | O => SkPoint.Make x y
  | 1%nat => SkPoint.Make (x + width) y
  | 2%nat => SkPoint.Make (x + width) (y + height)
  | _ => SkPoint.Make x (y + height)
  end.

(** *** Overflow

    The largest finite [float], (2 - 2^-23) * 2^127, and the least magnitude
    that rounds to an infinity, (2 - 2^-24) * 2^127. *)
Definition FLT_MAX : R := 340282346638528859811704183484516925440.
Definition overflow_threshold : R := 340282356779733661637539395458142568448.

(** The largest [int]. *)
Definition INT_MAX : Z := 2147483647.

(** The result of a [float] operation with overflow kept apart: a finite
    value, an infinity or NaN.  Finite results stay exact. *)
Inductive Float : Type :=
| Finite (r : R)
| Infinite (negative : bool)
| NaN.

Definition round_overflow (r : R) : Float :=
  if Rle_dec overflow_threshold r then Infinite false
  else if Rle_dec r (- overflow_threshold) then Infinite true
  else Finite r.

Definition Rnegative (r : R) : bool := if Rlt_dec r 0 then true else false.

Definition Fmul (a b : Float) : Float :=
  match a, b with
  | NaN, _ | _, NaN => NaN
  | Finite u, Finite v => round_overflow (u * v)
  | Infinite n, Finite v | Finite v, Infinite n =>
      if Req_dec_T v 0 then NaN else Infinite (xorb n (Rnegative v))
  | Infinite n, Infinite m => Infinite (xorb n m)
  end.

Definition Fsub (a b : Float) : Float :=
  match a, b with
  | NaN, _ | _, NaN => NaN
  | Finite u, Finite v => round_overflow (u - v)
  | Infinite n, Finite _ => Infinite n
  | Finite _, Infinite m => Infinite (negb m)
  | Infinite n, Infinite m => if Bool.eqb n m then NaN else Infinite n
  end.

(** [a <= b] on float results; every comparison with NaN is false. *)
Definition Fle (a b : Float) : Prop :=
  match a, b with
  | NaN, _ | _, NaN => False
  | Finite u, Finite v => u <= v
  | Infinite true, _ | _, Infinite false => True
  | Infinite false, _ | _, Infinite true => False
  end.

(** The three offsets the constructor assigns, each operation of lines 77 to
    88 with its overflow: [edge_connecting_offset], [edge_curve_offset],
    [arc_curve_offset]. *)
Record Offsets : Type := {
  connecting : Float;
  curve : Float;
  arc : Float
}.

Definition CurveGeometry_offsets (radius smoothness : R) : Offsets :=
  let edge_connecting_offset :=
    Fmul (round_overflow (1 + smoothness)) (Finite radius) in
  let arc_curve_offset :=
    round_overflow (1 - tan (arc_angle smoothness / 2)) in
  let edge_curve_offset :=
    Fsub edge_connecting_offset
         (Fmul (Fsub edge_connecting_offset arc_curve_offset)
               (Finite EDGE_CURVE_POINT_RATIO)) in
  {| connecting := edge_connecting_offset;
     curve := edge_curve_offset;
     arc := arc_curve_offset |}.

Definition instrumented : Build := {| DCHECK_IS_ON := true |}.
Definition uninstrumented : Build := {| DCHECK_IS_ON := false |}.

(** * Properties *)

(** ** QuarterRotate *)

Lemma point_eq (a b c d : R) :
  SkPoint.Make a b = SkPoint.Make c d <-> a = c /\ b = d.
Proof.
  split.
  - intros E. injection E as -> ->. split; reflexivity.
  - intros [-> ->]. reflexivity.
Qed.

Lemma quarter_index_cases (n : Z) :
  (0 <= n <= 3)%Z -> n = 0%Z \/ n = 1%Z \/ n = 2%Z \/ n = 3%Z.
Proof. lia. Qed.

Ltac quarter_cases H :=
  destruct (quarter_index_cases _ H) as [-> | [-> | [-> | ->]]].

Lemma QuarterRotate_0 (v : SkVector) :
  QuarterRotate v 0 = SkPoint.Make (1 * SkPoint.x v) (1 * SkPoint.y v).
Proof. reflexivity. Qed.

Lemma QuarterRotate_1 (v : SkVector) :
  QuarterRotate v 1 = SkPoint.Make (1 * SkPoint.y v) (-1 * SkPoint.x v).
Proof. reflexivity. Qed.

Lemma QuarterRotate_2 (v : SkVector) :
  QuarterRotate v 2 = SkPoint.Make (-1 * SkPoint.x v) (-1 * SkPoint.y v).
Proof. reflexivity. Qed.

Lemma QuarterRotate_3 (v : SkVector) :
  QuarterRotate v 3 = SkPoint.Make (-1 * SkPoint.y v) (1 * SkPoint.x v).
Proof. reflexivity. Qed.

Lemma QuarterRotate_4 (v : SkVector) :
  QuarterRotate v 4 = SkPoint.Make (1 * SkPoint.x v) (1 * SkPoint.y v).
Proof. reflexivity. Qed.

(** Rotating by zero quarters changes nothing. *)
Lemma QuarterRotate_identity (v : SkVector) : QuarterRotate v 0 = v.
Proof.
  destruct v as [a b]. rewrite QuarterRotate_0. apply point_eq.
  simpl. split; ring.
Qed.

(** One more quarter is a quarter rotation of the result. *)
Lemma QuarterRotate_succ (v : SkVector) (n : Z) :
  (0 <= n <= 3)%Z ->
  QuarterRotate v (n + 1) = QuarterRotate (QuarterRotate v n) 1.
Proof.
  intros H. destruct v as [a b].
  quarter_cases H; apply point_eq; simpl; split; ring.
Qed.

(** Four quarter rotations in a row give the vector back. *)
Lemma QuarterRotate_cycle (v : SkVector) :
  QuarterRotate (QuarterRotate (QuarterRotate (QuarterRotate v 1) 1) 1) 1 = v.
Proof.
  destruct v as [a b]. apply point_eq. simpl. split; ring.
Qed.

(** C1: for a rotation index n in 0..3, [QuarterRotate v n] is what the rule
    of the specification computes (sign_x positive iff n mod 4 < 2, sign_y
    positive iff (n+1) mod 4 < 2, components swapped iff n is odd), and it is
    v rotated clockwise by n right angles. *)
Theorem QuarterRotate_clockwise_quarters (v : SkVector) (n : Z) :
  (0 <= n <= 3)%Z ->
  QuarterRotate v n = QuarterRotate_rule v n /\
  QuarterRotate v n = rotate_clockwise (IZR n * (PI / 2)) v.
Proof.
  intros H. destruct v as [a b]. split.
  - quarter_cases H; reflexivity.
  - unfold rotate_clockwise.
    quarter_cases H; apply point_eq; simpl.
    + rewrite Rmult_0_l, cos_0, sin_0. split; ring.
    + replace (1 * (PI / 2)) with (PI / 2) by ring.
      rewrite cos_PI2, sin_PI2. split; ring.
    + replace (2 * (PI / 2)) with PI by field.
      rewrite cos_PI, sin_PI. split; ring.
    + rewrite cos_3PI2, sin_3PI2. split; ring.
Qed.

Lemma QuarterRotate_clockwise_quarters_witness :
  QuarterRotate (SkPoint.Make 5 7) 1 = QuarterRotate_rule (SkPoint.Make 5 7) 1 /\
  QuarterRotate (SkPoint.Make 5 7) 1 =
    rotate_clockwise (IZR 1 * (PI / 2)) (SkPoint.Make 5 7).
Proof. apply QuarterRotate_clockwise_quarters. lia. Defined.

(** The claim of C7 at one input: the transpose of (1, 2) with index 0 is
    (2, 1), while (1, 2) with index 1 is (2, -1). *)
Lemma transpose_not_extra_quarter :
  QuarterRotate (transpose (SkPoint.Make 1 2)) 0 <>
  QuarterRotate (SkPoint.Make 1 2) (0 + 1).
Proof.
  intros E. apply point_eq in E. simpl in E. lra.
Qed.

(** C7, amended: for a rotation index n in 0..3, [QuarterRotate] of the
    transpose of v with index n is [QuarterRotate] of the mirror image of v
    with index n+1: one more quarter rotation composed with a reflection.  It
    equals [QuarterRotate v (n+1)] exactly when the first component of v
    is 0. *)
Theorem transpose_is_mirrored_extra_quarter (v : SkVector) (n : Z) :
  (0 <= n <= 3)%Z ->
  QuarterRotate (transpose v) n = QuarterRotate (mirror v) (n + 1) /\
  (QuarterRotate (transpose v) n = QuarterRotate v (n + 1) <->
   SkPoint.x v = 0).
Proof.
  intros H. destruct v as [a b]. split.
  - quarter_cases H; apply point_eq; simpl; split; ring.
  - quarter_cases H; unfold QuarterRotate, transpose; simpl;
      rewrite point_eq; lra.
Qed.

Lemma transpose_is_mirrored_extra_quarter_witness :
  QuarterRotate (transpose (SkPoint.Make 1 2)) 0 =
    QuarterRotate (mirror (SkPoint.Make 1 2)) (0 + 1) /\
  (QuarterRotate (transpose (SkPoint.Make 1 2)) 0 =
     QuarterRotate (SkPoint.Make 1 2) (0 + 1) <->
   SkPoint.x (SkPoint.Make 1 2) = 0).
Proof. apply transpose_is_mirrored_extra_quarter. lia. Defined.

(** ** Checks that pass, checks that fail *)

Lemma DCHECK_GT_pass `{Build} (a b : R) : a > b -> DCHECK_GT a b = Done tt.
Proof.
  intros Hab. unfold DCHECK_GT, DCHECK, Rgtb.
  destruct (Rgt_dec a b); [| contradiction].
  destruct DCHECK_IS_ON; reflexivity.
Qed.

Lemma DCHECK_LE_pass `{Build} (a b : R) : a <= b -> DCHECK_LE a b = Done tt.
Proof.
  intros Hab. unfold DCHECK_LE, DCHECK, Rleb.
  destruct (Rle_dec a b); [| contradiction].
  destruct DCHECK_IS_ON; reflexivity.
Qed.

Lemma DCHECK_GT_fail `{Build} (a b : R) :
  DCHECK_IS_ON = true -> ~ a > b -> DCHECK_GT a b = Fatal.
Proof.
  intros On Hab. unfold DCHECK_GT, DCHECK, Rgtb. rewrite On.
  destruct (Rgt_dec a b); [contradiction | reflexivity].
Qed.

Lemma DCHECK_LE_fail `{Build} (a b : R) :
  DCHECK_IS_ON = true -> ~ a <= b -> DCHECK_LE a b = Fatal.
Proof.
  intros On Hab. unfold DCHECK_LE, DCHECK, Rleb. rewrite On.
  destruct (Rle_dec a b); [contradiction | reflexivity].
Qed.

Lemma DCHECK_off `{Build} (condition : bool) :
  DCHECK_IS_ON = false -> DCHECK condition = Done tt.
Proof. intros Off. unfold DCHECK. rewrite Off. reflexivity. Qed.

Lemma DCHECK_true `{Build} : DCHECK true = Done tt.
Proof. unfold DCHECK. destruct DCHECK_IS_ON; reflexivity. Qed.

(** ** CurveGeometry *)

(** On accepted arguments the constructor passes its checks and leaves the
    fields its body assigns. *)
Lemma CurveGeometry_accepts `{Build} (radius smoothness : R) :
  valid_corner radius smoothness ->
  CurveGeometry.CurveGeometry radius smoothness =
  Done (CurveGeometry.fields radius smoothness).
Proof.
  intros (Hr & Hs0 & Hs1). unfold CurveGeometry.CurveGeometry.
  rewrite !DCHECK_GT_pass, DCHECK_LE_pass by assumption. reflexivity.
Qed.

(** In an instrumented build the constructor ends the program on any other
    arguments. *)
Lemma CurveGeometry_rejects `{Build} (radius smoothness : R) :
  DCHECK_IS_ON = true ->
  ~ valid_corner radius smoothness ->
  CurveGeometry.CurveGeometry radius smoothness = Fatal.
Proof.
  intros On Bad. unfold CurveGeometry.CurveGeometry.
  destruct (Rgt_dec radius 0) as [Hr | Hr];
    [rewrite (DCHECK_GT_pass _ _ Hr) | now rewrite DCHECK_GT_fail].
  destruct (Rgt_dec smoothness 0) as [Hs | Hs];
    [rewrite (DCHECK_GT_pass _ _ Hs) | now rewrite DCHECK_GT_fail].
  destruct (Rle_dec smoothness 1) as [Hl | Hl];
    [| now rewrite DCHECK_LE_fail].
  exfalso. apply Bad. repeat split; assumption.
Qed.

(** *** The square root of two and the eighth of a half turn *)

Lemma sqrt2_square : sqrt 2 * sqrt 2 = 2.
Proof. apply sqrt_sqrt. lra. Qed.

Lemma sqrt2_bounds : 14142 / 10000 < sqrt 2 < 14143 / 10000.
Proof.
  pose proof sqrt2_square as Sq. pose proof (sqrt_pos 2) as Pos.
  split; nra.
Qed.

Lemma inv_sqrt2 : 1 / sqrt 2 = sqrt 2 / 2.
Proof.
  pose proof sqrt2_square as Sq. pose proof sqrt2_bounds as Bd.
  apply Rmult_eq_reg_r with (sqrt 2); [| lra].
  unfold Rdiv. rewrite Rmult_1_l, Rinv_l by lra. lra.
Qed.

Lemma sin_PI4_sqrt2 : sin (PI / 4) = sqrt 2 / 2.
Proof. rewrite sin_PI4. apply inv_sqrt2. Qed.

Lemma cos_PI4_sqrt2 : cos (PI / 4) = sqrt 2 / 2.
Proof. rewrite cos_PI4. apply inv_sqrt2. Qed.

Lemma tan_PI8 : tan (PI / 8) = sqrt 2 - 1.
Proof.
  pose proof PI_RGT_0 as Pi0.
  assert (Hc : 0 < cos (PI / 8)) by (apply cos_gt_0; lra).
  pose proof (sin_2a (PI / 8)) as Hs.
  pose proof (cos_2a_cos (PI / 8)) as Hcc.
  replace (2 * (PI / 8)) with (PI / 4) in Hs, Hcc by field.
  rewrite sin_PI4_sqrt2 in Hs. rewrite cos_PI4_sqrt2 in Hcc.
  pose proof sqrt2_square as Sq.
  assert (E : sin (PI / 8) = (sqrt 2 - 1) * cos (PI / 8)).
  { apply Rmult_eq_reg_r with (2 * cos (PI / 8)); [| lra].
    transitivity (sqrt 2 / 2); [lra |].
    transitivity ((sqrt 2 - 1) * (2 * cos (PI / 8) * cos (PI / 8)));
      [| ring].
    replace (2 * cos (PI / 8) * cos (PI / 8)) with (1 + sqrt 2 / 2) by lra.
    lra. }
  unfold tan. rewrite E. field. lra.
Qed.

(** *** The arc angle and its sine, cosine and half tangent *)

Lemma arc_angle_range (smoothness : R) :
  0 < smoothness <= 1 -> 0 < arc_angle smoothness <= PI / 4.
Proof.
  intros [Hs0 Hs1]. unfold arc_angle, PI_DIV_4.
  pose proof PI_RGT_0 as Pi0. split; nra.
Qed.

Lemma arc_angle_full : arc_angle 1 = PI / 4.
Proof. unfold arc_angle, PI_DIV_4. ring. Qed.

Lemma sin_arc_angle_range (smoothness : R) :
  0 < smoothness <= 1 ->
  0 < sin (arc_angle smoothness) <= sqrt 2 / 2.
Proof.
  intros Hs. destruct (arc_angle_range _ Hs) as [A0 A1].
  pose proof PI_RGT_0 as Pi0. split.
  - apply sin_gt_0; lra.
  - rewrite <- sin_PI4_sqrt2. apply sin_incr_1; lra.
Qed.

Lemma cos_arc_angle_range (smoothness : R) :
  0 < smoothness <= 1 ->
  sqrt 2 / 2 <= cos (arc_angle smoothness) < 1.
Proof.
  intros Hs. destruct (arc_angle_range _ Hs) as [A0 A1].
  pose proof PI_RGT_0 as Pi0. split.
  - rewrite <- cos_PI4_sqrt2. apply cos_decr_1; lra.
  - rewrite <- cos_0. apply cos_decreasing_1; lra.
Qed.

Lemma tan_half_arc_angle_range (smoothness : R) :
  0 < smoothness <= 1 ->
  0 < tan (arc_angle smoothness / 2) <= sqrt 2 - 1.
Proof.
  intros Hs. destruct (arc_angle_range _ Hs) as [A0 A1].
  pose proof PI_RGT_0 as Pi0. split.
  - apply tan_gt_0; lra.
  - rewrite <- tan_PI8. apply tan_incr_1; lra.
Qed.

(** Below full smoothness the sine of the arc angle stays strictly under its
    value at the eighth of a turn. *)
Lemma sin_arc_angle_strict (smoothness : R) :
  0 < smoothness < 1 -> sin (arc_angle smoothness) < sqrt 2 / 2.
Proof.
  intros [Hs0 Hs1]. pose proof PI_RGT_0 as Pi0.
  assert (A : 0 < arc_angle smoothness < PI / 4)
    by (unfold arc_angle, PI_DIV_4; split; nra).
  rewrite <- sin_PI4_sqrt2. apply sin_increasing_1; lra.
Qed.

(** C3: on accepted arguments the constructor computes
    edge_connecting_offset = (1 + smoothness) * radius,
    arc_angle = (pi/4) * smoothness,
    arc_connecting_vector = (1 - sin arc_angle, 1 - cos arc_angle),
    arc_curve_offset = 1 - tan (arc_angle / 2) and
    edge_curve_offset = edge_connecting_offset -
      (edge_connecting_offset - arc_curve_offset) * (2/3);
    at smoothness 1 the arc angle is pi/4, both components of the arc
    connecting vector are 1 - sqrt 2 / 2, within 0.0001 of 0.2929, and the arc
    curve offset is 1 - tan (pi/8), within 0.0001 of 0.5858. *)
Theorem CurveGeometry_formulas (B : Build) (radius smoothness : R) :
  radius > 0 -> 0 < smoothness <= 1 ->
  exists g,
    CurveGeometry.CurveGeometry radius smoothness = Done g /\
    CurveGeometry.edge_connecting_offset g = (1 + smoothness) * radius /\
    arc_angle smoothness = PI / 4 * smoothness /\
    CurveGeometry.arc_connecting_vector g =
      SkPoint.Make (1 - sin (arc_angle smoothness))
                   (1 - cos (arc_angle smoothness)) /\
    CurveGeometry.arc_curve_offset g = 1 - tan (arc_angle smoothness / 2) /\
    CurveGeometry.edge_curve_offset g =
      CurveGeometry.edge_connecting_offset g -
      (CurveGeometry.edge_connecting_offset g -
       CurveGeometry.arc_curve_offset g) * (2 / 3) /\
    (smoothness = 1 ->
       arc_angle smoothness = PI / 4 /\
       CurveGeometry.arc_connecting_vector g =
         SkPoint.Make (1 - sqrt 2 / 2) (1 - sqrt 2 / 2) /\
       Rabs ((1 - sqrt 2 / 2) - 2929 / 10000) < 1 / 10000 /\
       CurveGeometry.arc_curve_offset g = 1 - tan (PI / 8) /\
       Rabs (CurveGeometry.arc_curve_offset g - 5858 / 10000) < 1 / 10000).
Proof.
  intros Hr [Hs0 Hs1]. exists (CurveGeometry.fields radius smoothness).
  split; [apply CurveGeometry_accepts; repeat split; lra |].
  repeat (split; [reflexivity |]).
  intros ->. cbn [CurveGeometry.fields CurveGeometry.arc_connecting_vector
                  CurveGeometry.arc_curve_offset].
  rewrite arc_angle_full, sin_PI4_sqrt2, cos_PI4_sqrt2.
  replace (PI / 4 / 2) with (PI / 8) by field.
  pose proof sqrt2_bounds as Bd.
  repeat split; try reflexivity.
  - apply Rabs_def1; lra.
  - rewrite tan_PI8. apply Rabs_def1; lra.
Qed.

Lemma CurveGeometry_formulas_witness :
  exists g,
    @CurveGeometry.CurveGeometry instrumented 30 1 = Done g /\
    CurveGeometry.edge_connecting_offset g = (1 + 1) * 30 /\
    CurveGeometry.arc_curve_offset g = 1 - tan (PI / 8).
Proof.
  destruct (CurveGeometry_formulas instrumented 30 1) as (g & E & Eco & _ & _ & _ & _ & Full);
    [lra | lra |].
  exists g. destruct (Full eq_refl) as (_ & _ & _ & Aco & _).
  repeat split; assumption.
Defined.

(** The arc curve offset does not depend on the radius: it stays between
    2 - sqrt 2 and 1. *)
Lemma arc_curve_offset_range (radius smoothness : R) :
  0 < smoothness <= 1 ->
  2 - sqrt 2 <=
    CurveGeometry.arc_curve_offset (CurveGeometry.fields radius smoothness) < 1.
Proof.
  intros Hs. cbn [CurveGeometry.fields CurveGeometry.arc_curve_offset].
  pose proof (tan_half_arc_angle_range _ Hs). lra.
Qed.

(** The claim of C5 at radius 1/10 and smoothness 1: the edge connecting
    offset is 0.2, below the arc curve offset 2 - sqrt 2. *)
Lemma offsets_chain_fails_small_radius :
  exists g,
    @CurveGeometry.CurveGeometry instrumented (1 / 10) 1 = Done g /\
    ~ (0 <= CurveGeometry.arc_curve_offset g /\
       CurveGeometry.arc_curve_offset g <= CurveGeometry.edge_curve_offset g /\
       CurveGeometry.edge_curve_offset g <=
         CurveGeometry.edge_connecting_offset g).
Proof.
  exists (CurveGeometry.fields (1 / 10) 1). split.
  - apply CurveGeometry_accepts. unfold valid_corner. lra.
  - pose proof (arc_curve_offset_range (1 / 10) 1 ltac:(lra)) as A.
    pose proof sqrt2_bounds as Bd.
    cbn [CurveGeometry.fields CurveGeometry.arc_curve_offset
         CurveGeometry.edge_curve_offset CurveGeometry.edge_connecting_offset]
      in *.
    unfold EDGE_CURVE_POINT_RATIO. lra.
Qed.

(** Below the overflow threshold a result is the finite value itself. *)
Lemma round_overflow_finite (r : R) :
  - FLT_MAX <= r <= FLT_MAX -> round_overflow r = Finite r.
Proof.
  unfold round_overflow, FLT_MAX, overflow_threshold. intros [Lo Hi].
  destruct (Rle_dec _ r); [lra |]. destruct (Rle_dec r _); [lra |].
  reflexivity.
Qed.

(** With a radius of at most half the largest float no operation of the
    constructor overflows: the offsets are the finite values of
    [CurveGeometry.fields]. *)
Lemma CurveGeometry_offsets_finite (radius smoothness : R) :
  0 < radius <= FLT_MAX / 2 -> 0 < smoothness <= 1 ->
  let g := CurveGeometry.fields radius smoothness in
  CurveGeometry_offsets radius smoothness =
  {| connecting := Finite (CurveGeometry.edge_connecting_offset g);
     curve := Finite (CurveGeometry.edge_curve_offset g);
     arc := Finite (CurveGeometry.arc_curve_offset g) |}.
Proof.
  intros Hr Hs. cbv zeta.
  pose proof (arc_curve_offset_range radius smoothness Hs) as A.
  pose proof sqrt2_bounds as Bd.
  unfold CurveGeometry_offsets.
  cbn [CurveGeometry.fields CurveGeometry.arc_curve_offset
       CurveGeometry.edge_curve_offset CurveGeometry.edge_connecting_offset]
    in *.
  set (a := 1 - tan (arc_angle smoothness / 2)) in *.
  set (e := (1 + smoothness) * radius).
  assert (He : 0 < e <= FLT_MAX) by (unfold e; split; nra).
  assert (Big : 2 <= FLT_MAX) by (unfold FLT_MAX; lra).
  unfold EDGE_CURVE_POINT_RATIO.
  rewrite (round_overflow_finite (1 + smoothness)) by lra.
  rewrite (round_overflow_finite a) by lra.
  cbn [Fmul Fsub]. fold e.
  rewrite (round_overflow_finite e) by lra. cbn [Fmul Fsub].
  rewrite (round_overflow_finite (e - a)) by lra. cbn [Fmul Fsub].
  rewrite (round_overflow_finite ((e - a) * (2 / 3))) by lra.
  cbn [Fmul Fsub].
  rewrite (round_overflow_finite (e - (e - a) * (2 / 3))) by lra.
  reflexivity.
Qed.

(** C5, amended: on accepted arguments 0 <= arc_curve_offset; the rest of the
    chain, arc_curve_offset <= edge_curve_offset <= edge_connecting_offset,
    holds when the radius is at least 1 and at most half the largest float,
    where no operation overflows. *)
Theorem offsets_chain (B : Build) (radius smoothness : R) :
  radius > 0 -> 0 < smoothness <= 1 ->
  exists g,
    CurveGeometry.CurveGeometry radius smoothness = Done g /\
    0 <= CurveGeometry.arc_curve_offset g /\
    (1 <= radius <= FLT_MAX / 2 ->
     CurveGeometry_offsets radius smoothness =
       {| connecting := Finite (CurveGeometry.edge_connecting_offset g);
          curve := Finite (CurveGeometry.edge_curve_offset g);
          arc := Finite (CurveGeometry.arc_curve_offset g) |} /\
     CurveGeometry.arc_curve_offset g <= CurveGeometry.edge_curve_offset g /\
     CurveGeometry.edge_curve_offset g <=
       CurveGeometry.edge_connecting_offset g).
Proof.
  intros Hr Hs. exists (CurveGeometry.fields radius smoothness).
  split; [apply CurveGeometry_accepts; unfold valid_corner; lra |].
  pose proof (arc_curve_offset_range radius smoothness Hs) as A.
  pose proof sqrt2_bounds as Bd.
  split; [lra |]. intros Hbig.
  split; [apply CurveGeometry_offsets_finite; lra |].
  cbn [CurveGeometry.fields CurveGeometry.arc_curve_offset
       CurveGeometry.edge_curve_offset CurveGeometry.edge_connecting_offset]
    in *.
  unfold EDGE_CURVE_POINT_RATIO.
  assert (1 <= (1 + smoothness) * radius) by nra. lra.
Qed.

Lemma offsets_chain_witness :
  exists g,
    @CurveGeometry.CurveGeometry instrumented 30 (1 / 2) = Done g /\
    0 <= CurveGeometry.arc_curve_offset g /\
    CurveGeometry.arc_curve_offset g <= CurveGeometry.edge_curve_offset g /\
    CurveGeometry.edge_curve_offset g <= CurveGeometry.edge_connecting_offset g.
Proof.
  destruct (offsets_chain instrumented 30 (1 / 2)) as (g & E & A & Big);
    [lra | lra |].
  exists g. destruct Big as (_ & C1 & C2); [unfold FLT_MAX; lra |].
  repeat split; assumption.
Defined.

(** The claim of C10 at radius 2^127 and smoothness 1, arguments every check
    accepts: (1 + smoothness) * radius overflows to an infinity, infinity
    minus infinity is NaN, and NaN lies between nothing. *)
Lemma edge_curve_offset_overflows :
  valid_corner 170141183460469231731687303715884105728 1 /\
  connecting (CurveGeometry_offsets 170141183460469231731687303715884105728 1) = Infinite false /\
  curve (CurveGeometry_offsets 170141183460469231731687303715884105728 1) = NaN /\
  ~ (exists lo hi,
       Fle lo (curve (CurveGeometry_offsets 170141183460469231731687303715884105728 1)) /\
       Fle (curve (CurveGeometry_offsets 170141183460469231731687303715884105728 1)) hi).
Proof.
  assert (Ec : connecting (CurveGeometry_offsets 170141183460469231731687303715884105728 1) = Infinite false).
  { unfold CurveGeometry_offsets. cbn [connecting].
    rewrite (round_overflow_finite (1 + 1)) by (unfold FLT_MAX; lra).
    cbn [Fmul]. unfold round_overflow, overflow_threshold.
    destruct (Rle_dec _ _) as [_ | No]; [reflexivity | exfalso; lra]. }
  assert (En : curve (CurveGeometry_offsets 170141183460469231731687303715884105728 1) = NaN).
  { unfold CurveGeometry_offsets in *. cbn [connecting curve] in *.
    rewrite Ec.
    pose proof (arc_curve_offset_range 1 1 ltac:(lra)) as A.
    pose proof sqrt2_bounds as Bd.
    cbn [CurveGeometry.fields CurveGeometry.arc_curve_offset] in A.
    rewrite (round_overflow_finite (1 - tan (arc_angle 1 / 2)))
      by (unfold FLT_MAX; lra).
    cbn [Fsub Fmul]. unfold EDGE_CURVE_POINT_RATIO.
    destruct (Req_dec_T (2 / 3) 0) as [Z | _]; [exfalso; lra |].
    unfold Rnegative. destruct (Rlt_dec (2 / 3) 0); [exfalso; lra |].
    reflexivity. }
  split; [unfold valid_corner; lra |].
  split; [exact Ec |]. split; [exact En |].
  rewrite En. intros (lo & hi & Lo & _). destruct lo as [r | [|] |]; exact Lo.
Qed.

(** C10, amended: for a radius of at most half the largest float and a
    smoothness in (0, 1] no operation of the constructor overflows and the
    edge curve offset lies weakly between the arc curve offset and the edge
    connecting offset, whichever of the two is larger. *)
Theorem edge_curve_offset_between (B : Build) (radius smoothness : R) :
  0 < radius <= FLT_MAX / 2 -> 0 < smoothness <= 1 ->
  exists g,
    CurveGeometry.CurveGeometry radius smoothness = Done g /\
    CurveGeometry_offsets radius smoothness =
      {| connecting := Finite (CurveGeometry.edge_connecting_offset g);
         curve := Finite (CurveGeometry.edge_curve_offset g);
         arc := Finite (CurveGeometry.arc_curve_offset g) |} /\
    Rmin (CurveGeometry.arc_curve_offset g)
         (CurveGeometry.edge_connecting_offset g) <=
      CurveGeometry.edge_curve_offset g /\
    CurveGeometry.edge_curve_offset g <=
      Rmax (CurveGeometry.arc_curve_offset g)
           (CurveGeometry.edge_connecting_offset g).
Proof.
  intros Hr Hs. exists (CurveGeometry.fields radius smoothness).
  split; [apply CurveGeometry_accepts; unfold valid_corner; lra |].
  split; [apply CurveGeometry_offsets_finite; assumption |].
  cbn [CurveGeometry.fields CurveGeometry.arc_curve_offset
       CurveGeometry.edge_curve_offset CurveGeometry.edge_connecting_offset].
  unfold EDGE_CURVE_POINT_RATIO.
  set (a := 1 - tan (arc_angle smoothness / 2)).
  set (e := (1 + smoothness) * radius).
  unfold Rmin, Rmax. destruct (Rle_dec a e); lra.
Qed.

Lemma edge_curve_offset_between_witness :
  exists g,
    @CurveGeometry.CurveGeometry instrumented (1 / 10) 1 = Done g /\
    Rmin (CurveGeometry.arc_curve_offset g)
         (CurveGeometry.edge_connecting_offset g) <=
      CurveGeometry.edge_curve_offset g /\
    CurveGeometry.edge_curve_offset g <=
      Rmax (CurveGeometry.arc_curve_offset g)
           (CurveGeometry.edge_connecting_offset g).
Proof.
  destruct (edge_curve_offset_between instrumented (1 / 10) 1)
    as (g & E & _ & Lo & Hi); [unfold FLT_MAX; lra | lra |].
  exists g. repeat split; assumption.
Defined.

(** The claim of C8 at smoothness 1/2: the first component of the arc
    connecting vector is 1 - sin (pi/8), above 1 - sqrt 2 / 2. *)
Lemma arc_connecting_vector_first_component_above :
  exists g,
    @CurveGeometry.CurveGeometry instrumented 30 (1 / 2) = Done g /\
    ~ (0 <= SkPoint.x (CurveGeometry.arc_connecting_vector g) <=
         1 - sqrt 2 / 2).
Proof.
  exists (CurveGeometry.fields 30 (1 / 2)). split.
  - apply CurveGeometry_accepts. unfold valid_corner. lra.
  - cbn [CurveGeometry.fields CurveGeometry.arc_connecting_vector SkPoint.x].
    pose proof (sin_arc_angle_strict (1 / 2) ltac:(lra)). lra.
Qed.

(** C8, amended: on accepted arguments both components of the arc
    connecting vector lie in [0, 1]; the second component,
    1 - cos arc_angle, lies in [0, 1 - sqrt 2 / 2] and the first component,
    1 - sin arc_angle, in [1 - sqrt 2 / 2, 1], each bound taken with a
    tolerance of one millionth for the rounding of the computation. *)
Theorem arc_connecting_vector_ranges (B : Build) (radius smoothness : R) :
  radius > 0 -> 0 < smoothness <= 1 ->
  exists g,
    CurveGeometry.CurveGeometry radius smoothness = Done g /\
    0 <= SkPoint.y (CurveGeometry.arc_connecting_vector g) <=
      1 - sqrt 2 / 2 + 1 / 1000000 /\
    1 - sqrt 2 / 2 - 1 / 1000000 <=
      SkPoint.x (CurveGeometry.arc_connecting_vector g) <= 1.
Proof.
  intros Hr Hs. exists (CurveGeometry.fields radius smoothness).
  split; [apply CurveGeometry_accepts; unfold valid_corner; lra |].
  cbn [CurveGeometry.fields CurveGeometry.arc_connecting_vector
       SkPoint.x SkPoint.y].
  pose proof (sin_arc_angle_range _ Hs) as S.
  pose proof (cos_arc_angle_range _ Hs) as C.
  split; lra.
Qed.

Lemma arc_connecting_vector_ranges_witness :
  exists g,
    @CurveGeometry.CurveGeometry instrumented 30 (1 / 2) = Done g /\
    0 <= SkPoint.y (CurveGeometry.arc_connecting_vector g) <=
      1 - sqrt 2 / 2 + 1 / 1000000 /\
    1 - sqrt 2 / 2 - 1 / 1000000 <=
      SkPoint.x (CurveGeometry.arc_connecting_vector g) <= 1.
Proof.
  apply (arc_connecting_vector_ranges instrumented 30 (1 / 2)); lra.
Defined.

(** ** DrawCorner and DrawSmoothRoundRect *)

(** With an index in 0..3 a call of [DrawCorner] passes its checks and appends
    the four verbs of the corner. *)
Lemma DrawCorner_appends `{Build} (path : SkPath) (radius : R)
    (curve : CurveGeometry.t) (corner : SkPoint.t) (quarter_rotations : Z) :
  (0 <= quarter_rotations < 4)%Z ->
  DrawCorner path radius curve corner quarter_rotations =
  Done (path ++ corner_verbs radius curve corner quarter_rotations).
Proof.
  intros [Lo Hi]. unfold DrawCorner, DCHECK_GE_int, DCHECK_LT_int.
  replace (quarter_rotations >=? 0)%Z with true by (symmetry; lia).
  replace (quarter_rotations <? 4)%Z with true by (symmetry; lia).
  rewrite DCHECK_true. cbn [bind].
  unfold corner_verbs, cubicTo, arcTo, moveTo, lineTo.
  destruct (quarter_rotations =? 0)%Z;
    rewrite <- !app_assoc; reflexivity.
Qed.

(** On accepted arguments [DrawSmoothRoundRect] passes every check, in any
    build, and returns the verbs of the rectangle. *)
Lemma DrawSmoothRoundRect_accepts `{Build} (x y width height smoothness
    top_left_radius top_right_radius bottom_right_radius bottom_left_radius
    : R) :
  valid_input width height smoothness top_left_radius top_right_radius
              bottom_right_radius bottom_left_radius ->
  DrawSmoothRoundRect x y width height smoothness top_left_radius
    top_right_radius bottom_right_radius bottom_left_radius =
  Done (rect_verbs x y width height smoothness top_left_radius
          top_right_radius bottom_right_radius bottom_left_radius).
Proof.
  intros (Hw & Hh & Hs0 & Hs1 & Htl & Htr & Hbr & Hbl).
  unfold DrawSmoothRoundRect.
  rewrite !DCHECK_GT_pass, DCHECK_LE_pass by assumption. cbn [bind].
  rewrite !CurveGeometry_accepts by (repeat split; assumption). cbn [bind].
  repeat (rewrite DrawCorner_appends by lia; cbn [bind]).
  unfold close, rect_verbs. rewrite <- !app_assoc. reflexivity.
Qed.

(** In an instrumented build [DrawSmoothRoundRect] ends the program on any
    other arguments. *)
Lemma DrawSmoothRoundRect_rejects `{Build} (x y width height smoothness
    top_left_radius top_right_radius bottom_right_radius bottom_left_radius
    : R) :
  DCHECK_IS_ON = true ->
  ~ valid_input width height smoothness top_left_radius top_right_radius
                bottom_right_radius bottom_left_radius ->
  DrawSmoothRoundRect x y width height smoothness top_left_radius
    top_right_radius bottom_right_radius bottom_left_radius = Fatal.
Proof.
  intros On Bad. unfold DrawSmoothRoundRect.
  destruct (Rgt_dec width 0) as [Hw | Hw];
    [rewrite (DCHECK_GT_pass _ _ Hw) | now rewrite DCHECK_GT_fail].
  destruct (Rgt_dec height 0) as [Hh | Hh];
    [rewrite (DCHECK_GT_pass _ _ Hh) | now rewrite DCHECK_GT_fail].
  destruct (Rgt_dec smoothness 0) as [Hs | Hs];
    [rewrite (DCHECK_GT_pass _ _ Hs) | now rewrite DCHECK_GT_fail].
  destruct (Rle_dec smoothness 1) as [Hl | Hl];
    [rewrite (DCHECK_LE_pass _ _ Hl) | now rewrite DCHECK_LE_fail].
  destruct (Rgt_dec top_left_radius 0) as [H1 | H1];
    [rewrite (DCHECK_GT_pass _ _ H1) | now rewrite DCHECK_GT_fail].
  destruct (Rgt_dec top_right_radius 0) as [H2 | H2];
    [rewrite (DCHECK_GT_pass _ _ H2) | now rewrite DCHECK_GT_fail].
  destruct (Rgt_dec bottom_right_radius 0) as [H3 | H3];
    [rewrite (DCHECK_GT_pass _ _ H3) | now rewrite DCHECK_GT_fail].
  destruct (Rgt_dec bottom_left_radius 0) as [H4 | H4];
    [| now rewrite DCHECK_GT_fail].
  exfalso. apply Bad. repeat split; assumption.
Qed.

(** With the checks compiled out nothing is validated: a path comes back for
    every argument, a width of 0 included. *)
Lemma DrawSmoothRoundRect_unchecked `{Build} (x y width height smoothness
    top_left_radius top_right_radius bottom_right_radius bottom_left_radius
    : R) :
  DCHECK_IS_ON = false ->
  DrawSmoothRoundRect x y width height smoothness top_left_radius
    top_right_radius bottom_right_radius bottom_left_radius =
  Done (rect_verbs x y width height smoothness top_left_radius
          top_right_radius bottom_right_radius bottom_left_radius).
Proof.
  intros Off.
  unfold DrawSmoothRoundRect, CurveGeometry.CurveGeometry, DCHECK_GT, DCHECK_LE.
  rewrite !(DCHECK_off _ Off). cbn [bind].
  repeat (rewrite DrawCorner_appends by lia; cbn [bind]).
  unfold close, rect_verbs. rewrite <- !app_assoc. reflexivity.
Qed.

(** A width of 0 with the checks compiled out. *)
Example DrawSmoothRoundRect_unchecked_zero_width :
  @DrawSmoothRoundRect uninstrumented 0 0 0 100 (6 / 10) 20 20 20 20 =
  Done (rect_verbs 0 0 0 100 (6 / 10) 20 20 20 20).
Proof. apply DrawSmoothRoundRect_unchecked. reflexivity. Qed.

(** C6: in an instrumented build [DrawSmoothRoundRect] ends in a fatal check
    exactly when a precondition is violated (width <= 0, height <= 0,
    smoothness outside (0, 1], or a radius <= 0), and so does the constructor
    of the geometry for its own arguments; a width of 0 or a smoothness of 0
    gives no path, and accepted arguments give a path with no check firing. *)
Theorem fatal_iff_precondition_violated (B : Build) (x y width height
    smoothness top_left_radius top_right_radius bottom_right_radius
    bottom_left_radius : R) :
  DCHECK_IS_ON = true ->
  (DrawSmoothRoundRect x y width height smoothness top_left_radius
     top_right_radius bottom_right_radius bottom_left_radius = Fatal <->
   ~ valid_input width height smoothness top_left_radius top_right_radius
                 bottom_right_radius bottom_left_radius) /\
  (valid_input width height smoothness top_left_radius top_right_radius
               bottom_right_radius bottom_left_radius ->
   exists path,
     DrawSmoothRoundRect x y width height smoothness top_left_radius
       top_right_radius bottom_right_radius bottom_left_radius = Done path) /\
  (width = 0 \/ smoothness = 0 ->
   DrawSmoothRoundRect x y width height smoothness top_left_radius
     top_right_radius bottom_right_radius bottom_left_radius = Fatal) /\
  (forall radius,
     CurveGeometry.CurveGeometry radius smoothness = Fatal <->
     ~ valid_corner radius smoothness).
Proof.
  intros On.
  assert (Iff : DrawSmoothRoundRect x y width height smoothness
            top_left_radius top_right_radius bottom_right_radius
            bottom_left_radius = Fatal <->
          ~ valid_input width height smoothness top_left_radius
              top_right_radius bottom_right_radius bottom_left_radius).
  { split.
    - intros E V. rewrite (DrawSmoothRoundRect_accepts _ _ _ _ _ _ _ _ _ V) in E.
      discriminate E.
    - apply DrawSmoothRoundRect_rejects, On. }
  split; [exact Iff |]. split; [| split].
  - intros V. eexists. apply DrawSmoothRoundRect_accepts, V.
  - intros Zero. apply Iff. unfold valid_input. intros V. lra.
  - intros radius. split.
    + intros E V. rewrite (CurveGeometry_accepts _ _ V) in E. discriminate E.
    + apply CurveGeometry_rejects, On.
Qed.

Lemma fatal_iff_precondition_violated_witness :
  @DrawSmoothRoundRect instrumented 0 0 0 100 (6 / 10) 20 20 20 20 = Fatal /\
  exists path,
    @DrawSmoothRoundRect instrumented 0 0 100 100 (6 / 10) 20 20 20 20 =
    Done path.
Proof.
  split.
  - apply (fatal_iff_precondition_violated instrumented 0 0 0 100 (6 / 10)
             20 20 20 20 eq_refl).
    left. reflexivity.
  - apply (fatal_iff_precondition_violated instrumented 0 0 100 100 (6 / 10)
             20 20 20 20 eq_refl).
    unfold valid_input. lra.
Defined.

(** C4: for every accepted input the returned path holds exactly 1 move,
    3 lines, 8 cubic curves, 4 arcs and 1 close, in the order line-in (a move
    for the first corner), curve-in, arc, curve-out for each of the four
    corners, taken clockwise from the top left one, and then the close. *)
Theorem verbs_of_path (B : Build) (x y width height smoothness
    top_left_radius top_right_radius bottom_right_radius bottom_left_radius
    : R) :
  valid_input width height smoothness top_left_radius top_right_radius
              bottom_right_radius bottom_left_radius ->
  exists path,
    DrawSmoothRoundRect x y width height smoothness top_left_radius
      top_right_radius bottom_right_radius bottom_left_radius = Done path /\
    map kind_of path =
      [kMove; kCubic; kArc; kCubic;
       kLine; kCubic; kArc; kCubic;
       kLine; kCubic; kArc; kCubic;
       kLine; kCubic; kArc; kCubic;
       kClose] /\
    count_verbs kMove path = 1%nat /\
    count_verbs kLine path = 3%nat /\
    count_verbs kCubic path = 8%nat /\
    count_verbs kArc path = 4%nat /\
    count_verbs kClose path = 1%nat /\
    arc_radii path =
      [top_left_radius; top_right_radius; bottom_right_radius;
       bottom_left_radius].
Proof.
  intros V. eexists. split; [apply DrawSmoothRoundRect_accepts, V |].
  repeat split; reflexivity.
Qed.

Lemma verbs_of_path_witness :
  exists path,
    @DrawSmoothRoundRect instrumented 0 0 100 100 (6 / 10) 20 20 20 20 =
      Done path /\
    count_verbs kCubic path = 8%nat /\ count_verbs kLine path = 3%nat.
Proof.
  destruct (verbs_of_path instrumented 0 0 100 100 (6 / 10) 20 20 20 20)
    as (path & E & _ & _ & Lines & Cubics & _).
  - unfold valid_input. lra.
  - exists path. repeat split; assumption.
Defined.

(** The first and the last point of the path of an accepted input. *)
Lemma first_and_final_point (x y width height smoothness top_left_radius
    top_right_radius bottom_right_radius bottom_left_radius : R) :
  let path := rect_verbs x y width height smoothness top_left_radius
                top_right_radius bottom_right_radius bottom_left_radius in
  first_move_point path =
    Some (SkPoint.Make x y +>
          QuarterRotate (CurveGeometry.edge_connecting_vector
                           (CurveGeometry.fields top_left_radius smoothness))
                        1) /\
  final_drawn_point path =
    Some (SkPoint.Make x (y + height) +>
          QuarterRotate (CurveGeometry.edge_connecting_vector
                           (CurveGeometry.fields bottom_left_radius smoothness))
                        3).
Proof. split; reflexivity. Qed.

(** In coordinates: the first move point is (x, y - edge_connecting_offset) of
    the top left corner, the final drawn point is
    (x, y + height + edge_connecting_offset) of the bottom left corner. *)
Lemma first_and_final_coordinates (x y width height smoothness
    top_left_radius top_right_radius bottom_right_radius bottom_left_radius
    : R) :
  let path := rect_verbs x y width height smoothness top_left_radius
                top_right_radius bottom_right_radius bottom_left_radius in
  exists first final,
    first_move_point path = Some first /\
    final_drawn_point path = Some final /\
    SkPoint.x first = x /\
    SkPoint.y first = y - (1 + smoothness) * top_left_radius /\
    SkPoint.x final = x /\
    SkPoint.y final = y + height + (1 + smoothness) * bottom_left_radius.
Proof.
  cbv zeta. eexists. eexists.
  split; [reflexivity |]. split; [reflexivity |].
  rewrite QuarterRotate_1, QuarterRotate_3. simpl.
  repeat split; ring.
Qed.

(** The claim of C2 at x = y = 0, width = height = 100, smoothness 0.6 and
    radii 20: the path starts at (0, -32) and its last curve ends at
    (0, 132); the two are further apart than any tolerance up to 1. *)
Lemma path_does_not_end_at_start :
  exists path,
    @DrawSmoothRoundRect instrumented 0 0 100 100 (6 / 10) 20 20 20 20 =
      Done path /\
    ~ ends_at_start 1 path.
Proof.
  eexists. split.
  - apply DrawSmoothRoundRect_accepts. unfold valid_input. lra.
  - intros (first & final & Ef & El & _ & Gap).
    destruct (first_and_final_point 0 0 100 100 (6 / 10) 20 20 20 20)
      as [Ef' El'].
    cbv zeta in Ef', El'. rewrite Ef' in Ef. rewrite El' in El.
    injection Ef as <-. injection El as <-.
    revert Gap. rewrite QuarterRotate_1, QuarterRotate_3. simpl.
    apply Rlt_not_le.
    replace (0 + 100 + 1 * ((1 + 6 / 10) * 20) - (0 + -1 * ((1 + 6 / 10) * 20)))
      with 164 by field.
    rewrite Rabs_pos_eq; lra.
Qed.

(** C2, amended: for every accepted input the returned path ends with its
    single close verb, which joins the final drawn point to the first move
    point.  The final drawn point is the end of the second easing curve of
    the bottom left corner, corner + rotate(edge_connecting_vector, 3); the
    first move point is the edge connecting point of the top left corner,
    corner + rotate(edge_connecting_vector, 1).  The two have the same first
    coordinate; they need not coincide. *)
Theorem path_closed_by_close_verb (B : Build) (x y width height smoothness
    top_left_radius top_right_radius bottom_right_radius bottom_left_radius
    : R) :
  valid_input width height smoothness top_left_radius top_right_radius
              bottom_right_radius bottom_left_radius ->
  exists path body first final,
    DrawSmoothRoundRect x y width height smoothness top_left_radius
      top_right_radius bottom_right_radius bottom_left_radius = Done path /\
    path = body ++ [Close] /\
    count_verbs kClose body = 0%nat /\
    first_move_point path = Some first /\
    final_drawn_point path = Some final /\
    first =
      SkPoint.Make x y +>
      QuarterRotate (CurveGeometry.edge_connecting_vector
                       (CurveGeometry.fields top_left_radius smoothness)) 1 /\
    final =
      SkPoint.Make x (y + height) +>
      QuarterRotate (CurveGeometry.edge_connecting_vector
                       (CurveGeometry.fields bottom_left_radius smoothness)) 3 /\
    SkPoint.x final = SkPoint.x first.
Proof.
  intros V.
  destruct (first_and_final_point x y width height smoothness top_left_radius
              top_right_radius bottom_right_radius bottom_left_radius)
    as [Ef El].
  cbv zeta in Ef, El.
  eexists. eexists. eexists. eexists.
  split; [apply DrawSmoothRoundRect_accepts, V |].
  split; [unfold rect_verbs; rewrite !app_assoc; reflexivity |].
  split; [reflexivity |].
  split; [exact Ef |]. split; [exact El |].
  split; [reflexivity |]. split; [reflexivity |].
  rewrite QuarterRotate_1, QuarterRotate_3. simpl. ring.
Qed.

Lemma path_closed_by_close_verb_witness :
  exists path first final,
    @DrawSmoothRoundRect instrumented 0 0 100 100 (6 / 10) 20 20 20 20 =
      Done path /\
    first_move_point path = Some first /\
    final_drawn_point path = Some final /\
    SkPoint.x final = SkPoint.x first.
Proof.
  destruct (path_closed_by_close_verb instrumented 0 0 100 100 (6 / 10)
              20 20 20 20)
    as (path & body & first & final & E & _ & _ & Ef & El & _ & _ & Same).
  - unfold valid_input. lra.
  - exists path, first, final. repeat split; assumption.
Defined.

(** The verbs of one corner in the path of a rectangle are those [DrawCorner]
    emits from the radius of that corner alone. *)
Lemma corner_segments_rect_verbs (x y width height smoothness top_left_radius
    top_right_radius bottom_right_radius bottom_left_radius : R) (i : nat) :
  (i < 4)%nat ->
  let radius := radius_of i top_left_radius top_right_radius
                  bottom_right_radius bottom_left_radius in
  let corner :=
    match i with
    | O => SkPoint.Make x y
    | 1%nat => SkPoint.Make (x + width) y
    | 2%nat => SkPoint.Make (x + width) (y + height)
    | _ => SkPoint.Make x (y + height)
    end in
  corner_segments i
    (rect_verbs x y width height smoothness top_left_radius top_right_radius
       bottom_right_radius bottom_left_radius) =
  corner_verbs radius (CurveGeometry.fields radius smoothness) corner
               (Z.of_nat i).
Proof.
  intros Hi.
  destruct i as [| [| [| [| i]]]]; [reflexivity .. | lia].
Qed.

(** C9: two accepted inputs with the same x, y, width, height and smoothness
    whose radii differ in one corner only give the same path segments for
    each of the other three corners (the same line or move target, control
    points, end points and arc), while the segments of the changed corner
    differ. *)
Theorem other_corners_unchanged (B : Build) (x y width height smoothness : R)
    (top_left_radius top_right_radius bottom_right_radius bottom_left_radius
     top_left_radius' top_right_radius' bottom_right_radius'
     bottom_left_radius' : R) (changed : nat) :
  valid_input width height smoothness top_left_radius top_right_radius
              bottom_right_radius bottom_left_radius ->
  valid_input width height smoothness top_left_radius' top_right_radius'
              bottom_right_radius' bottom_left_radius' ->
  (changed < 4)%nat ->
  radius_of changed top_left_radius top_right_radius bottom_right_radius
            bottom_left_radius <>
  radius_of changed top_left_radius' top_right_radius' bottom_right_radius'
            bottom_left_radius' ->
  (forall j, (j < 4)%nat -> j <> changed ->
     radius_of j top_left_radius top_right_radius bottom_right_radius
               bottom_left_radius =
     radius_of j top_left_radius' top_right_radius' bottom_right_radius'
               bottom_left_radius') ->
  exists path path',
    DrawSmoothRoundRect x y width height smoothness top_left_radius
      top_right_radius bottom_right_radius bottom_left_radius = Done path /\
    DrawSmoothRoundRect x y width height smoothness top_left_radius'
      top_right_radius' bottom_right_radius' bottom_left_radius' = Done path' /\
    (forall i, (i < 4)%nat -> i <> changed ->
       length (corner_segments i path) = 4%nat /\
       corner_segments i path = corner_segments i path') /\
    corner_segments changed path <> corner_segments changed path'.
Proof.
  intros V V' Hc Diff Same.
  eexists. eexists.
  split; [apply DrawSmoothRoundRect_accepts, V |].
  split; [apply DrawSmoothRoundRect_accepts, V' |].
  split.
  - intros i Hi Ne.
    rewrite !corner_segments_rect_verbs by assumption. cbv zeta.
    rewrite (Same i Hi Ne). split; reflexivity.
  - rewrite !corner_segments_rect_verbs by assumption. cbv zeta.
    intros E. apply (f_equal arc_radii) in E. unfold corner_verbs in E.
    destruct (Z.of_nat changed =? 0)%Z; cbn [arc_radii SkPoint.x] in E;
      apply Diff; injection E as E; exact E.
Qed.

Lemma other_corners_unchanged_witness :
  exists path path',
    @DrawSmoothRoundRect instrumented 0 0 200 200 (1 / 2) 10 40 40 40 =
      Done path /\
    @DrawSmoothRoundRect instrumented 0 0 200 200 (1 / 2) 25 40 40 40 =
      Done path' /\
    corner_segments 1 path = corner_segments 1 path' /\
    corner_segments 2 path = corner_segments 2 path' /\
    corner_segments 3 path = corner_segments 3 path' /\
    corner_segments 0 path <> corner_segments 0 path'.
Proof.
  destruct (other_corners_unchanged instrumented 0 0 200 200 (1 / 2)
              10 40 40 40 25 40 40 40 0)
    as (path & path' & E & E' & Others & Changed).
  - unfold valid_input. lra.
  - unfold valid_input. lra.
  - lia.
  - simpl. lra.
  - intros [| [| [| [| j]]]] Hj Ne; try reflexivity; lia.
  - exists path, path'.
    repeat split; try assumption; apply Others; lia.
Defined.

(** * Further properties of the code *)

(** ** QuarterRotate on every index *)

Lemma quarter_residue (n : Z) :
  (0 <= n)%Z ->
  Z.rem n 4 = (n mod 4)%Z /\
  Z.rem (n + 1) 4 = ((n mod 4 + 1) mod 4)%Z /\
  Z.rem n 2 = ((n mod 4) mod 2)%Z /\
  (0 <= n mod 4 <= 3)%Z.
Proof.
  intros Hn. repeat split; Z.to_euclidean_division_equations; lia.
Qed.

Lemma QuarterRotate_residue (v : SkVector) (n : Z) :
  (0 <= n)%Z -> QuarterRotate v n = QuarterRotate v (n mod 4).
Proof.
  intros Hn. destruct (quarter_residue n Hn) as (E4 & E41 & E2 & Rg).
  unfold QuarterRotate at 1. rewrite E4, E41, E2.
  quarter_cases Rg; reflexivity.
Qed.

(** X1: an index from 0 up to INT_MAX - 4, where neither the caller's
    n + 4 nor the n + 1 inside overflows, counts modulo 4: it acts as its
    residue, and four more quarters change nothing. *)
Theorem QuarterRotate_periodic (v : SkVector) (n : Z) :
  (0 <= n <= INT_MAX - 4)%Z ->
  QuarterRotate v n = QuarterRotate v (n mod 4) /\
  QuarterRotate v (n + 4) = QuarterRotate v n.
Proof.
  intros [Hn _]. split; [apply QuarterRotate_residue, Hn |].
  rewrite (QuarterRotate_residue v (n + 4)%Z) by lia.
  rewrite (QuarterRotate_residue v n Hn).
  f_equal. Z.to_euclidean_division_equations; lia.
Qed.

Lemma QuarterRotate_periodic_witness :
  QuarterRotate (SkPoint.Make 5 7) 6 = QuarterRotate (SkPoint.Make 5 7) (6 mod 4) /\
  QuarterRotate (SkPoint.Make 5 7) (6 + 4) = QuarterRotate (SkPoint.Make 5 7) 6.
Proof. apply QuarterRotate_periodic. unfold INT_MAX. lia. Defined.

(** X2: rotating by m quarters and then by n quarters is rotating by m + n
    quarters, for non-negative m and n whose sum stays below INT_MAX, so
    that no index overflows. *)
Theorem QuarterRotate_compose (v : SkVector) (m n : Z) :
  (0 <= m)%Z -> (0 <= n)%Z -> (m + n < INT_MAX)%Z ->
  QuarterRotate (QuarterRotate v m) n = QuarterRotate v (m + n).
Proof.
  intros Hm Hn _.
  rewrite (QuarterRotate_residue v m Hm).
  rewrite (QuarterRotate_residue _ n Hn).
  rewrite (QuarterRotate_residue v (m + n)%Z) by lia.
  replace ((m + n) mod 4)%Z with ((m mod 4 + n mod 4) mod 4)%Z
    by (Z.to_euclidean_division_equations; lia).
  assert (Rm : (0 <= m mod 4 <= 3)%Z)
    by (Z.to_euclidean_division_equations; lia).
  assert (Rn : (0 <= n mod 4 <= 3)%Z)
    by (Z.to_euclidean_division_equations; lia).
  destruct v as [a b].
  quarter_cases Rm; quarter_cases Rn; apply point_eq; simpl; split; ring.
Qed.

Lemma QuarterRotate_compose_witness :
  QuarterRotate (QuarterRotate (SkPoint.Make 5 7) 3) 2 =
  QuarterRotate (SkPoint.Make 5 7) (3 + 2).
Proof. apply QuarterRotate_compose; unfold INT_MAX; lia. Defined.

(** X3: on a negative index nothing is negated: the result is the vector
    itself for an even index and its transpose for an odd one, so a negative
    index does not turn backwards. *)
Theorem QuarterRotate_negative_index (v : SkVector) (n : Z) :
  (n < 0)%Z ->
  QuarterRotate v n = (if Z.even n then v else transpose v) /\
  (SkPoint.x v <> 0 -> QuarterRotate (QuarterRotate v 1) (-1) <> v).
Proof.
  intros Hn. destruct v as [a b]. split.
  - unfold QuarterRotate.
    replace (Z.rem n 4 <? 2)%Z with true
      by (symmetry; apply Z.ltb_lt; Z.to_euclidean_division_equations; lia).
    replace (Z.rem (n + 1) 4 <? 2)%Z with true
      by (symmetry; apply Z.ltb_lt; Z.to_euclidean_division_equations; lia).
    replace (Z.rem n 2 =? 0)%Z with (Z.even n).
    + destruct (Z.even n); apply point_eq; simpl; split; ring.
    + destruct (Z.even n) eqn:Ev.
      * symmetry. apply Z.eqb_eq. apply Z.even_spec in Ev.
        destruct Ev as [k ->]. Z.to_euclidean_division_equations; lia.
      * symmetry. apply Z.eqb_neq. intros R0.
        assert (Z.even n = true); [| congruence].
        apply Z.even_spec. exists (Z.quot n 2).
        Z.to_euclidean_division_equations; lia.
  - simpl. intros Ha E. apply point_eq in E. simpl in E. lra.
Qed.

Lemma QuarterRotate_negative_index_witness :
  QuarterRotate (SkPoint.Make 5 7) (-3) =
    (if Z.even (-3) then SkPoint.Make 5 7 else transpose (SkPoint.Make 5 7)).
Proof. apply QuarterRotate_negative_index. lia. Defined.

(** X4: for every index, of either sign, [QuarterRotate] is linear, keeps the
    length of a vector and is one-to-one. *)
Theorem QuarterRotate_linear_isometry (n : Z) (v w : SkVector) (k : R) :
  QuarterRotate (v +> w) n = QuarterRotate v n +> QuarterRotate w n /\
  QuarterRotate (scale k v) n = scale k (QuarterRotate v n) /\
  norm2 (QuarterRotate v n) = norm2 v /\
  (QuarterRotate v n = QuarterRotate w n -> v = w).
Proof.
  destruct v as [a b], w as [c d].
  unfold QuarterRotate, SkPoint.add, scale, norm2.
  destruct (Z.rem n 4 <? 2)%Z, (Z.rem (n + 1) 4 <? 2)%Z, (Z.rem n 2 =? 0)%Z;
    cbn [SkPoint.x SkPoint.y];
    (split; [apply point_eq; split; ring |]);
    (split; [apply point_eq; split; ring |]);
    (split; [ring |]);
    intros E; apply point_eq in E; apply point_eq; lra.
Qed.

(** ** DrawCorner *)

(** X5: in an instrumented build [DrawCorner] ends in a fatal check exactly
    when the index is outside 0..3; with an index inside, in any build, it
    keeps the verbs already in the path and appends four: a move for index 0
    and a line otherwise, then cubic, arc, cubic. *)
Theorem DrawCorner_index_check (B : Build) (path : SkPath) (radius : R)
    (curve : CurveGeometry.t) (corner : SkPoint.t) (quarter_rotations : Z) :
  (DCHECK_IS_ON = true ->
   (DrawCorner path radius curve corner quarter_rotations = Fatal <->
    ~ (0 <= quarter_rotations < 4)%Z)) /\
  ((0 <= quarter_rotations < 4)%Z ->
   exists added,
     DrawCorner path radius curve corner quarter_rotations =
       Done (path ++ added) /\
     map kind_of added =
       [if (quarter_rotations =? 0)%Z then kMove else kLine;
        kCubic; kArc; kCubic] /\
     arc_radii added = [radius]).
Proof.
  split.
  - intros On. split.
    + intros E Rg. rewrite (DrawCorner_appends _ _ _ _ _ Rg) in E.
      discriminate E.
    + intros Bad. unfold DrawCorner, DCHECK_GE_int, DCHECK_LT_int, DCHECK.
      rewrite On.
      destruct (quarter_rotations >=? 0)%Z eqn:Ge; [| reflexivity].
      destruct (quarter_rotations <? 4)%Z eqn:Lt; [| reflexivity].
      exfalso. apply Bad. lia.
  - intros Rg. exists (corner_verbs radius curve corner quarter_rotations).
    split; [apply DrawCorner_appends, Rg |].
    unfold corner_verbs.
    destruct (quarter_rotations =? 0)%Z; split; reflexivity.
Qed.

Lemma DrawCorner_index_check_witness :
  @DrawCorner instrumented [] 20 (CurveGeometry.fields 20 (1 / 2))
    (SkPoint.Make 0 0) 4 = Fatal /\
  exists added,
    @DrawCorner instrumented [Close] 20 (CurveGeometry.fields 20 (1 / 2))
      (SkPoint.Make 0 0) 3 = Done ([Close] ++ added) /\
    arc_radii added = [20].
Proof.
  split.
  - apply (DrawCorner_index_check instrumented); [reflexivity | lia].
  - destruct (DrawCorner_index_check instrumented [Close] 20
                (CurveGeometry.fields 20 (1 / 2)) (SkPoint.Make 0 0) 3)
      as [_ Ok].
    destruct Ok as (added & E & _ & Radii); [lia |].
    exists added. split; assumption.
Defined.

(** ** The shape of the path *)

Ltac path_of_valid V :=
  eexists; split; [apply DrawSmoothRoundRect_accepts, V |].

(** X7: every straight segment of the path of an accepted input lies on the
    line of a side of the rectangle: the three line verbs on the top side
    (y), the right side (x + width) and the bottom side (y + height), and
    the segment the close verb draws on the left side (x). *)
Theorem straight_segments_on_sides (B : Build) (x y width height smoothness
    top_left_radius top_right_radius bottom_right_radius bottom_left_radius
    : R) :
  valid_input width height smoothness top_left_radius top_right_radius
              bottom_right_radius bottom_left_radius ->
  exists path,
    DrawSmoothRoundRect x y width height smoothness top_left_radius
      top_right_radius bottom_right_radius bottom_left_radius = Done path /\
    (forall pen target, In (pen, Line target) (spans path) ->
       (SkPoint.y pen = y /\ SkPoint.y target = y) \/
       (SkPoint.x pen = x + width /\ SkPoint.x target = x + width) \/
       (SkPoint.y pen = y + height /\ SkPoint.y target = y + height)) /\
    (forall pen, In (pen, Close) (spans path) ->
       SkPoint.x pen = x /\
       exists start, first_move_point path = Some start /\
                     SkPoint.x start = x).
Proof.
  intros V. path_of_valid V. split.
  - intros pen target Hin.
    unfold rect_verbs, corner_verbs, spans in Hin.
    cbn -[QuarterRotate SkPoint.add CurveGeometry.fields] in Hin.
    repeat (destruct Hin as [Hin | Hin]; try discriminate Hin);
      try contradiction; injection Hin as <- <-.
    + left. simpl. split; ring.
    + right. left. simpl. split; ring.
    + right. right. simpl. split; ring.
  - intros pen Hin.
    unfold rect_verbs, corner_verbs, spans in Hin.
    cbn -[QuarterRotate SkPoint.add CurveGeometry.fields] in Hin.
    repeat (destruct Hin as [Hin | Hin]; try discriminate Hin);
      try contradiction; injection Hin as <-.
    split; [simpl; ring |].
    eexists. split; [reflexivity |]. simpl. ring.
Qed.

Lemma straight_segments_on_sides_witness :
  exists path,
    @DrawSmoothRoundRect instrumented 0 0 100 50 (6 / 10) 20 20 20 20 =
      Done path /\
    forall pen, In (pen, Close) (spans path) -> SkPoint.x pen = 0.
Proof.
  destruct (straight_segments_on_sides instrumented 0 0 100 50 (6 / 10)
              20 20 20 20) as (path & E & _ & Closes).
  - unfold valid_input. lra.
  - exists path. split; [exact E |].
    intros pen Hin. apply (Closes pen Hin).
Defined.

(** X10: the edge side of each easing curve lies on a side line.  For the
    corner with index i the first curve starts on the line through the corner
    along which the pen arrives and has both control points on that line; the
    second curve has both control points and its end point on the line
    through the corner along which the pen leaves.  For the top left and
    bottom right corners the first line is vertical and the second
    horizontal, for the other two corners the other way round. *)
Theorem easing_curve_controls_on_sides (B : Build) (x y width height
    smoothness top_left_radius top_right_radius bottom_right_radius
    bottom_left_radius : R) (i : nat) :
  valid_input width height smoothness top_left_radius top_right_radius
              bottom_right_radius bottom_left_radius ->
  (i < 4)%nat ->
  exists path pen c1 c2 e pen' d1 d2 e',
    DrawSmoothRoundRect x y width height smoothness top_left_radius
      top_right_radius bottom_right_radius bottom_left_radius = Done path /\
    nth_error (spans path) (4 * i + 1) = Some (pen, Cubic c1 c2 e) /\
    nth_error (spans path) (4 * i + 3) = Some (pen', Cubic d1 d2 e') /\
    let corner := corner_of i x y width height in
    if Nat.even i
    then (SkPoint.x pen = SkPoint.x corner /\ SkPoint.x c1 = SkPoint.x corner /\
          SkPoint.x c2 = SkPoint.x corner) /\
         (SkPoint.y d1 = SkPoint.y corner /\ SkPoint.y d2 = SkPoint.y corner /\
          SkPoint.y e' = SkPoint.y corner)
    else (SkPoint.y pen = SkPoint.y corner /\ SkPoint.y c1 = SkPoint.y corner /\
          SkPoint.y c2 = SkPoint.y corner) /\
         (SkPoint.x d1 = SkPoint.x corner /\ SkPoint.x d2 = SkPoint.x corner /\
          SkPoint.x e' = SkPoint.x corner).
Proof.
  intros V Hi.
  destruct i as [| [| [| [| i]]]]; [| | | | lia];
    do 9 eexists;
    (split; [apply DrawSmoothRoundRect_accepts, V |]);
    (split; [reflexivity |]); (split; [reflexivity |]);
    simpl; repeat split; ring.
Qed.

Lemma easing_curve_controls_on_sides_witness :
  exists path pen c1 c2 e,
    @DrawSmoothRoundRect instrumented 0 0 100 100 (6 / 10) 20 20 20 20 =
      Done path /\
    nth_error (spans path) (4 * 1 + 1) = Some (pen, Cubic c1 c2 e) /\
    SkPoint.y pen = 0 /\ SkPoint.y c1 = 0 /\ SkPoint.y c2 = 0.
Proof.
  destruct (easing_curve_controls_on_sides instrumented 0 0 100 100 (6 / 10)
              20 20 20 20 1)
    as (path & pen & c1 & c2 & e & pen' & d1 & d2 & e' & E & In1 & _ & On).
  - unfold valid_input. lra.
  - lia.
  - exists path, pen, c1, c2, e. simpl in On.
    repeat split; try assumption; apply On.
Defined.

(** ** The measurements of a corner *)

(** X14: for a radius of at most half the largest float the edge connecting
    offset, the length of a side a corner takes up, is at least the radius
    and at most twice the radius, and the edge curve offset is positive;
    nothing overflows. *)
Theorem edge_measurements_range (B : Build) (radius smoothness : R) :
  0 < radius <= FLT_MAX / 2 -> 0 < smoothness <= 1 ->
  exists g,
    CurveGeometry.CurveGeometry radius smoothness = Done g /\
    CurveGeometry_offsets radius smoothness =
      {| connecting := Finite (CurveGeometry.edge_connecting_offset g);
         curve := Finite (CurveGeometry.edge_curve_offset g);
         arc := Finite (CurveGeometry.arc_curve_offset g) |} /\
    radius <= CurveGeometry.edge_connecting_offset g <= 2 * radius /\
    0 < CurveGeometry.edge_curve_offset g.
Proof.
  intros Hr Hs. exists (CurveGeometry.fields radius smoothness).
  split; [apply CurveGeometry_accepts; unfold valid_corner; lra |].
  split; [apply CurveGeometry_offsets_finite; assumption |].
  pose proof (arc_curve_offset_range radius smoothness Hs) as A.
  pose proof sqrt2_bounds as Bd.
  cbn [CurveGeometry.fields CurveGeometry.arc_curve_offset
       CurveGeometry.edge_curve_offset CurveGeometry.edge_connecting_offset]
    in *.
  unfold EDGE_CURVE_POINT_RATIO.
  split; [split; nra |].
  assert (0 < (1 + smoothness) * radius) by nra. lra.
Qed.

Lemma edge_measurements_range_witness :
  exists g,
    @CurveGeometry.CurveGeometry instrumented 20 (6 / 10) = Done g /\
    20 <= CurveGeometry.edge_connecting_offset g <= 2 * 20.
Proof.
  destruct (edge_measurements_range instrumented 20 (6 / 10))
    as (g & E & _ & Rg & _); [unfold FLT_MAX; lra | lra |].
  exists g. split; assumption.
Defined.

(** ** Builds *)

Ltac reject_input On :=
  right; apply DrawSmoothRoundRect_rejects;
  [exact On | unfold valid_input; tauto].

(** X15: the checks never change a result.  On an accepted input every build
    returns the same path; on any other input an instrumented build ends in a
    fatal check while a build without checks still returns a path of the same
    seventeen verbs. *)
Theorem checks_do_not_change_result (B B' : Build) (x y width height
    smoothness top_left_radius top_right_radius bottom_right_radius
    bottom_left_radius : R) :
  (valid_input width height smoothness top_left_radius top_right_radius
               bottom_right_radius bottom_left_radius ->
   @DrawSmoothRoundRect B x y width height smoothness top_left_radius
     top_right_radius bottom_right_radius bottom_left_radius =
   @DrawSmoothRoundRect B' x y width height smoothness top_left_radius
     top_right_radius bottom_right_radius bottom_left_radius) /\
  (@DCHECK_IS_ON B = false ->
   exists path,
     @DrawSmoothRoundRect B x y width height smoothness top_left_radius
       top_right_radius bottom_right_radius bottom_left_radius = Done path /\
     length path = 17%nat /\
     (@DCHECK_IS_ON B' = true ->
      @DrawSmoothRoundRect B' x y width height smoothness top_left_radius
        top_right_radius bottom_right_radius bottom_left_radius = Done path \/
      @DrawSmoothRoundRect B' x y width height smoothness top_left_radius
        top_right_radius bottom_right_radius bottom_left_radius = Fatal)).
Proof.
  split.
  - intros V. rewrite !DrawSmoothRoundRect_accepts by exact V. reflexivity.
  - intros Off. eexists.
    split; [apply DrawSmoothRoundRect_unchecked, Off |].
    split; [reflexivity |].
    intros On.
    destruct (Rgt_dec width 0); [| reject_input On].
    destruct (Rgt_dec height 0); [| reject_input On].
    destruct (Rgt_dec smoothness 0); [| reject_input On].
    destruct (Rle_dec smoothness 1); [| reject_input On].
    destruct (Rgt_dec top_left_radius 0); [| reject_input On].
    destruct (Rgt_dec top_right_radius 0); [| reject_input On].
    destruct (Rgt_dec bottom_right_radius 0); [| reject_input On].
    destruct (Rgt_dec bottom_left_radius 0); [| reject_input On].
    left. apply DrawSmoothRoundRect_accepts. repeat split; assumption.
Qed.

Lemma checks_do_not_change_result_witness :
  @DrawSmoothRoundRect instrumented 0 0 100 100 (6 / 10) 20 20 20 20 =
  @DrawSmoothRoundRect uninstrumented 0 0 100 100 (6 / 10) 20 20 20 20.
Proof.
  apply (checks_do_not_change_result instrumented uninstrumented).
  unfold valid_input. lra.
Defined.
